(** * Context-bound loggers: a model of [context/logger.go]

    The Go package keeps one process-wide default [*logrus.Entry], lets a
    caller bind a [Logger] to a [context.Context] under the private key
    [loggerKey{}], and resolves a logger (bound or default) enriched with
    fields.  This file embeds those operations and proves the properties
    the specification states about them.

    Modelling choices.
    - A [*logrus.Entry] is a pointer: [None] is the nil pointer, [Some a] an
      address into the heap of entries.  Entries are only ever allocated by
      this code, never updated in place, so the heap is a list in allocation
      order and a new entry takes the next index.
    - A nil-pointer dereference is a panic; an operation that panics
      returns [None].
    - A [context.Context] is its chain of [WithValue] frames, innermost
      first; the empty chain is [context.Background()].
    - A value of the interface type [context.Context] is nil or such a
      chain ([ContextValue]); a method call on the nil interface panics.
    - logrus is an external library.  Of an entry the model keeps the
      backend ([*logrus.Logger]) and the field map [Data]; [WithFields]
      allocates a new entry over the same backend whose [Data] is the old
      one overlaid with the given fields, except those whose value is a
      function or a pointer to one, which logrus refuses.  (The note logrus
      keeps about refused fields is not part of the model.)
    - Keys are the comparable values used as context keys: strings,
      integers, values of named string types, and the package's own
      [loggerKey{}]. *)

From stdpp Require Import base option list gmap strings pretty.

Open Scope string_scope.
Open Scope list_scope.
Open Scope nat_scope.

(** ** Values *)

Definition addr := nat.

(** A [*logrus.Entry]: nil or the address of an entry. *)
Definition ptr := option addr.

(** Context keys ([interface{}] values used as keys). *)
Inductive key :=
  | KLoggerKey                          (* loggerKey{} *)
  | KString (s : string)                (* a string *)
  | KInt (n : Z)                        (* an int *)
  | KNamed (ty : string) (s : string).  (* a value of [type ty string] *)

(** Values held by a context or by a field ([interface{}]). *)
Inductive value :=
  | VNil                        (* the nil interface *)
  | VString (s : string)
  | VInt (n : Z)
  | VEntry (p : ptr)            (* dynamic type *logrus.Entry, maybe a nil pointer *)
  | VLogger (impl : nat)        (* a Logger of some other dynamic type *)
  | VFunc (f : nat)             (* a function value *)
  | VFuncPtr (f : nat).         (* a pointer to a function *)

(** A value of the interface type [Logger]. *)
Inductive Logger :=
  | LNil                        (* the nil interface *)
  | LEntry (p : ptr)            (* dynamic type *logrus.Entry *)
  | LOther (impl : nat).        (* any other implementation *)

(** Conversion of a [Logger] to [interface{}], as done when it is passed to
    [context.WithValue]. *)
Definition iface (l : Logger) : value :=
  match l with
  | LNil => VNil
  | LEntry p => VEntry p
  | LOther i => VLogger i
  end.

Global Instance key_eq_dec : EqDecision key.
Proof. solve_decision. Defined.

Global Instance value_eq_dec : EqDecision value.
Proof. solve_decision. Defined.

Global Instance Logger_eq_dec : EqDecision Logger.
Proof. solve_decision. Defined.

(** [v != nil] on an interface value. *)
Definition is_nil (v : value) : bool :=
  match v with VNil => true | _ => false end.

(** The test of logrus's [WithFields] on a field value: its kind is
    [reflect.Func], or [reflect.Ptr] to a [reflect.Func]. *)
Definition is_func (v : value) : bool :=
  match v with VFunc _ | VFuncPtr _ => true | _ => false end.

(** [fmt.Sprint] on a key. *)
Definition Sprint (k : key) : string :=
  match k with
  | KLoggerKey => "{}"
  | KString s => s
  | KInt n => pretty n
  | KNamed _ s => s
  end.

(** ** logrus entries and the process state *)

(** [logrus.Fields]. *)
Abbreviation Fields := (gmap string value).

Record Entry := mkEntry {
  Logger_ : nat;      (* the backend, a *logrus.Logger *)
  Data : Fields
}.

Record State := mkState {
  heap : list Entry;        (* every entry allocated so far *)
  defaultLogger : ptr       (* the package variable *)
}.

(** The backend returned by [logrus.StandardLogger()]. *)
Definition StandardLogger : nat := 0.

(** State after package initialisation:
    [defaultLogger = logrus.StandardLogger().WithFields(logrus.Fields{})]. *)
Definition init_state : State :=
  {| heap := [ {| Logger_ := StandardLogger; Data := ∅ |} ];
     defaultLogger := Some 0 |}.

(** ** A state monad with panics *)

Definition M (A : Type) : Type := State → option (A * State).

Definition ret {A} (a : A) : M A := λ st, Some (a, st).

Definition bind {A B} (m : M A) (f : A → M B) : M B :=
  λ st, match m st with
        | Some (a, st') => f a st'
        | None => None
        end.

Definition get_defaultLogger : M ptr := λ st, Some (defaultLogger st, st).

Definition set_defaultLogger (p : ptr) : M unit :=
  λ st, Some (tt, {| heap := heap st; defaultLogger := p |}).

Notation "x <-- m ; f" := (bind m (λ x, f))
  (at level 20, m at level 100, f at level 200, only parsing).

(** The state with one more entry on the heap. *)
Definition grow (st : State) (e : Entry) : State :=
  {| heap := heap st ++ [e]; defaultLogger := defaultLogger st |}.

(** [&Entry{...}]: allocate an entry. *)
Definition alloc (e : Entry) : M ptr :=
  λ st, Some (Some (length (heap st)), grow st e).

(** [*entry]: dereference, panicking on nil. *)
Definition deref (p : ptr) : M Entry :=
  λ st, match p with
        | None => None
        | Some a => match heap st !! a with
                    | Some e => Some (e, st)
                    | None => None
                    end
        end.

(** What [WithFields] does with one given field: it writes it, unless the
    value is a function. *)
Definition accept (v : value) : option value :=
  if is_func v then None else Some v.

(** The given fields that [WithFields] writes. *)
Definition accepted (fields : Fields) : Fields := omap accept fields.

(** The entry [WithFields] builds from [e]: the same backend; the data is
    the receiver's data with every accepted field written over it. *)
Definition enriched (e : Entry) (fields : Fields) : Entry :=
  {| Logger_ := Logger_ e; Data := accepted fields ∪ Data e |}.

(** [entry.WithFields(fields)]. *)
Definition WithFields (entry : ptr) (fields : Fields) : M ptr :=
  e <-- deref entry ;
  alloc (enriched e fields).

(** [entry.WithField(key, value)] is [entry.WithFields(Fields{key: value})]. *)
Definition WithField (entry : ptr) (name : string) (v : value) : M ptr :=
  WithFields entry {[ name := v ]}.

(** ** Contexts *)

Definition Context := list (key * value).

Definition Background : Context := [].

(** [context.WithValue(parent, key, val)]. *)
Definition WithValue (parent : Context) (k : key) (v : value) : Context :=
  (k, v) :: parent.

(** [ctx.Value(key)]: the innermost frame for the key decides; nil when
    no frame has it. *)
Fixpoint Value (ctx : Context) (k : key) : value :=
  match ctx with
  | [] => VNil
  | (k', v) :: parent => if decide (k' = k) then v else Value parent k
  end.

(** A value of the interface type [context.Context]: the nil interface or
    a context. *)
Inductive ContextValue :=
  | CtxNil
  | Ctx (ctx : Context).

(** A function whose first use of its [context.Context] argument is the
    method call [ctx.Value]: on the nil interface that call panics. *)
Definition with_context {A} (c : ContextValue) (op : Context → M A) : M A :=
  match c with
  | CtxNil => λ _, None
  | Ctx ctx => op ctx
  end.

(** ** The package's operations *)

Definition WithLogger (ctx : Context) (logger : Logger) : Context :=
  WithValue ctx KLoggerKey (iface logger).

(** The loop of [getLogrusLogger]: one field per key with a value. *)
Definition resolve_step (ctx : Context) (fields : Fields) (k : key) : Fields :=
  let v := Value ctx k in
  if is_nil v then fields else <[ Sprint k := v ]> fields.

Definition resolve_fields (ctx : Context) (keys : list key) : Fields :=
  foldl (resolve_step ctx) ∅ keys.

(** The logger bound in the context, when it is a [*logrus.Entry]; nil
    otherwise (also when the bound pointer is itself nil). *)
Definition bound_logger (ctx : Context) : ptr :=
  match Value ctx KLoggerKey with
  | VEntry lgr => lgr
  | _ => None
  end.

Definition getLogrusLogger (ctx : Context) (keys : list key) : M ptr :=
  logger <-- (match bound_logger ctx with
             | Some a => ret (Some a)
             | None => get_defaultLogger
             end) ;
  WithFields logger (resolve_fields ctx keys).

Definition GetLogger (ctx : Context) (keys : list key) : M Logger :=
  p <-- getLogrusLogger ctx keys ; ret (LEntry p).

Definition GetLoggerWithField (ctx : Context) (k : key) (v : value)
    (keys : list key) : M Logger :=
  base <-- getLogrusLogger ctx keys ;
  p <-- WithField base (Sprint k) v ;
  ret (LEntry p).

(** The conversion loop of [GetLoggerWithFields].  The Go map is given as
    the list of its entries in the order the [range] visits them. *)
Definition convert_fields (fields : list (key * value)) : Fields :=
  foldl (λ lfields kv, <[ Sprint kv.1 := kv.2 ]> lfields) ∅ fields.

Definition GetLoggerWithFields (ctx : Context) (fields : list (key * value))
    (keys : list key) : M Logger :=
  let lfields := convert_fields fields in
  base <-- getLogrusLogger ctx keys ;
  p <-- WithFields base lfields ;
  ret (LEntry p).

Definition SetDefaultLogger (logger : Logger) : M unit :=
  match logger with
  | LEntry entry => set_defaultLogger entry
  | _ => ret tt
  end.

(** ** Reading results *)

(** The entry a pointer refers to. *)
Definition entry_at (st : State) (p : ptr) : option Entry :=
  match p with
  | Some a => heap st !! a
  | None => None
  end.

(** The entry behind a returned [Logger], when it is a live
    [*logrus.Entry]. *)
Definition logger_entry (st : State) (l : Logger) : option Entry :=
  match l with
  | LEntry p => entry_at st p
  | _ => None
  end.

(** The logger [getLogrusLogger] starts from: the bound entry, else the
    default. *)
Definition base_logger (ctx : Context) (st : State) : ptr :=
  match bound_logger ctx with
  | Some a => Some a
  | None => defaultLogger st
  end.

(** ** Well-formed states

    Go has no dangling pointers: every non-nil [*logrus.Entry] held by a
    context refers to an allocated entry.  [state_ok] moreover says that
    the default logger is a non-nil pointer, as it is after package
    initialisation. *)

Definition ptr_ok (h : list Entry) (p : ptr) : bool :=
  match p with
  | None => true
  | Some a => a <? length h
  end.

Definition value_ok (h : list Entry) (v : value) : bool :=
  match v with
  | VEntry p => ptr_ok h p
  | _ => true
  end.

Definition ctx_ok (h : list Entry) (ctx : Context) : bool :=
  forallb (λ kv, value_ok h kv.2) ctx.

Definition state_ok (st : State) : bool :=
  match defaultLogger st with
  | Some a => a <? length (heap st)
  | None => false
  end.

(** [st'] is [st] after some allocations: same default, the old entries
    unchanged at their addresses. *)
Definition extends (st st' : State) : Prop :=
  defaultLogger st' = defaultLogger st ∧ ∃ es, heap st' = heap st ++ es.

(** ** Properties the claims speak of *)

(** What the specification asks of a retrieval [op] on [ctx] run in [st]:
    it returns a logger; the default logger is as before; every entry
    that existed is as before; the returned entry did not exist; a plain
    resolution on [ctx] gives the same logger after the call as before it;
    and calling again gives another new entry with the same contents.
    (A context is an immutable value here as in Go: no operation of the
    package can rebind one, and none returns one but [WithLogger].) *)
Definition retrieval_is_pure (op : M Logger) (ctx : Context) (st : State) : Prop :=
  ∃ p st',
    op st = Some (LEntry (Some p), st')
    ∧ defaultLogger st' = defaultLogger st
    ∧ (∀ a e, heap st !! a = Some e → heap st' !! a = Some e)
    ∧ heap st !! p = None
    ∧ is_Some (heap st' !! p)
    ∧ (∃ e0 q s q' s',
         GetLogger ctx [] st = Some (LEntry (Some q), s) ∧ heap s !! q = Some e0
         ∧ GetLogger ctx [] st' = Some (LEntry (Some q'), s') ∧ heap s' !! q' = Some e0)
    ∧ (∃ p' st'',
         op st' = Some (LEntry (Some p'), st'')
         ∧ p' ≠ p
         ∧ heap st'' !! p' = heap st' !! p).

(** [op] returns a new entry: the base logger of [ctx] enriched with
    [fields], leaving a state that extends the one it ran in. *)
Definition enriches (op : M Logger) (ctx : Context) (fields : Fields) : Prop :=
  ∀ st a e,
    base_logger ctx st = Some a → heap st !! a = Some e →
    ∃ p st',
      op st = Some (LEntry (Some p), st')
      ∧ extends st st'
      ∧ length (heap st) ≤ p
      ∧ heap st' !! p = Some (enriched e fields).

(** The field set C4 describes for [GetLoggerWithFields ctx fields keys]:
    every explicit key mapped to its value and every extra key with a value
    in the context mapped to that value. *)
Definition fields_as_stated (ctx : Context) (fields : list (key * value))
    (keys : list key) (e : Entry) : Prop :=
  (∀ k v, (k, v) ∈ fields → Data e !! Sprint k = Some v)
  ∧ (∀ k, k ∈ keys → Value ctx k ≠ VNil →
          Data e !! Sprint k = Some (Value ctx k)).

(** ** Callers *)

(** A caller replacing the default logger several times in a row:
    [SetDefaultLogger(l1); SetDefaultLogger(l2); ...]. *)
Fixpoint SetDefaultLogger_each (loggers : list Logger) : M unit :=
  match loggers with
  | [] => ret tt
  | l :: rest => u <-- SetDefaultLogger l ; SetDefaultLogger_each rest
  end.

(** A context argument without dangling pointers. *)
Definition context_ok (h : list Entry) (c : ContextValue) : bool :=
  match c with
  | CtxNil => true
  | Ctx ctx => ctx_ok h ctx
  end.

(** The context argument is nil, or it binds no non-nil [*logrus.Entry]
    under the private key while the default logger is nil. *)
Definition no_logger_to_start_from (c : ContextValue) (st : State) : Prop :=
  match c with
  | CtxNil => True
  | Ctx ctx => bound_logger ctx = None ∧ defaultLogger st = None
  end.

(** The dynamic type of a [Logger] is [*logrus.Entry]. *)
Definition is_entry (l : Logger) : bool :=
  match l with LEntry _ => true | _ => false end.

(** A state in which the default logger was replaced by a nil pointer. *)
Definition nil_default_state : State :=
  {| heap := heap (grow (grow init_state
                {| Logger_ := 5; Data := {[ "service" := VString "registry" ]} |})
                {| Logger_ := 6; Data := {[ "zone" := VInt 2 ]} |});
     defaultLogger := None |}.

(** A context in which two keys print alike: a string and a value of a
    named string type. *)
Definition clash_ctx : Context :=
  WithValue (WithValue Background (KString "id") (VString "outer"))
            (KNamed "traceKey" "id") (VString "inner").

(** ** Sample data *)

Definition sample_entry : Entry :=
  {| Logger_ := 5; Data := {[ "service" := VString "registry" ]} |}.

Definition other_entry : Entry :=
  {| Logger_ := 6; Data := {[ "zone" := VInt 2 ]} |}.

(** The initial state after two more entries were made: [sample_entry] at
    address 1, [other_entry] at address 2. *)
Definition sample_state : State := grow (grow init_state sample_entry) other_entry.

(** A request context: [sample_entry] bound as logger, then a request id. *)
Definition sample_ctx : Context :=
  WithValue (WithLogger Background (LEntry (Some 1)))
            (KString "reqID") (VString "xyz").

(** A context with a request id and no logger. *)
Definition unbound_ctx : Context :=
  WithValue Background (KString "reqID") (VString "xyz").

(** Case analysis on membership in a list given by its elements. *)
Ltac list_cases H :=
  repeat (apply elem_of_cons in H as [H | H]; [try subst |]);
  try (apply elem_of_nil in H; destruct H).

(** * Lemmas *)

(** ** The heap *)

Section heap_facts.
Implicit Types (st : State) (e : Entry) (a : addr) (p : ptr).

Lemma lookup_grow_new st e : heap (grow st e) !! length (heap st) = Some e.
Proof. simpl. by rewrite list_lookup_middle. Qed.

Lemma extends_trans st1 st2 st3 :
  extends st1 st2 → extends st2 st3 → extends st1 st3.
Proof.
  intros [D1 [es1 H1]] [D2 [es2 H2]]. split; [congruence |].
  exists (es1 ++ es2). by rewrite H2, H1, app_assoc.
Qed.

Lemma extends_grow st e : extends st (grow st e).
Proof. split; [done | by exists [e]]. Qed.

Lemma extends_lookup st st' a e :
  extends st st' → heap st !! a = Some e → heap st' !! a = Some e.
Proof. intros [_ [es ->]] H. by apply lookup_app_l_Some. Qed.

Lemma extends_lookup_lt st st' a :
  extends st st' → a < length (heap st) → heap st' !! a = heap st !! a.
Proof. intros [_ [es ->]] H. by apply lookup_app_l. Qed.

Lemma extends_length st st' :
  extends st st' → length (heap st) ≤ length (heap st').
Proof. intros [_ [es ->]]. rewrite length_app. lia. Qed.

Lemma ptr_ok_mono h h' p :
  length h ≤ length h' → ptr_ok h p = true → ptr_ok h' p = true.
Proof.
  destruct p as [a|]; simpl; [|done].
  rewrite !Nat.ltb_lt. lia.
Qed.

Lemma value_ok_mono h h' v :
  length h ≤ length h' → value_ok h v = true → value_ok h' v = true.
Proof. destruct v; simpl; eauto using ptr_ok_mono. Qed.

Lemma ctx_ok_mono h h' ctx :
  length h ≤ length h' → ctx_ok h ctx = true → ctx_ok h' ctx = true.
Proof.
  intros Hle. unfold ctx_ok. rewrite !forallb_forall.
  intros H kv Hin. eapply value_ok_mono; eauto.
Qed.

Lemma state_ok_extends st st' :
  extends st st' → state_ok st = true → state_ok st' = true.
Proof.
  intros Hext. pose proof (extends_length _ _ Hext) as Hle.
  destruct Hext as [Hd _]. unfold state_ok. rewrite Hd.
  destruct (defaultLogger st); [|done].
  rewrite !Nat.ltb_lt. lia.
Qed.

Lemma ctx_ok_extends st st' ctx :
  extends st st' → ctx_ok (heap st) ctx = true → ctx_ok (heap st') ctx = true.
Proof. intros H. apply ctx_ok_mono. by apply extends_length. Qed.

(** What a well-formed context yields for a key is well-formed. *)
Lemma ctx_ok_Value h ctx k : ctx_ok h ctx = true → value_ok h (Value ctx k) = true.
Proof.
  induction ctx as [|[k' v] ctx IH]; simpl; [done |].
  rewrite andb_true_iff. intros [Hv Hctx].
  case_decide; auto.
Qed.

Lemma ptr_ok_live h a : ptr_ok h (Some a) = true → is_Some (h !! a).
Proof. simpl. rewrite Nat.ltb_lt. apply lookup_lt_is_Some_2. Qed.

(** In a well-formed state the logger resolution starts from is live. *)
Lemma base_logger_live ctx st :
  state_ok st = true → ctx_ok (heap st) ctx = true →
  ∃ a e, base_logger ctx st = Some a ∧ heap st !! a = Some e.
Proof.
  intros Hst Hctx. unfold base_logger, bound_logger.
  pose proof (ctx_ok_Value _ _ KLoggerKey Hctx) as Hv.
  destruct (Value ctx KLoggerKey) as [| | |[a|]| | |] eqn:E;
    try (unfold state_ok in Hst; destruct (defaultLogger st) as [d|]; [|done];
         destruct (ptr_ok_live (heap st) d Hst) as [e He]; by exists d, e).
  destruct (ptr_ok_live _ _ Hv) as [e He]. by exists a, e.
Qed.
End heap_facts.

(** ** What the operations compute *)

Section operations.
Implicit Types (st : State) (e : Entry) (a : addr) (ctx : Context).

Lemma lookup_accepted (fields : Fields) n :
  accepted fields !! n = fields !! n ≫= accept.
Proof. apply lookup_omap. Qed.

Lemma accepted_empty : accepted ∅ = ∅.
Proof. apply omap_empty. Qed.

(** The fields [WithFields] writes are not refused when given again. *)
Lemma accepted_accepted (fields : Fields) : accepted (accepted fields) = accepted fields.
Proof.
  apply map_eq. intros n. rewrite !lookup_accepted.
  destruct (fields !! n) as [v|]; simpl; [| done].
  unfold accept. destruct (is_func v) eqn:E; simpl; [done |]. by rewrite E.
Qed.

Lemma accepted_union (f g : Fields) :
  accepted (accepted g ∪ accepted f) = accepted g ∪ accepted f.
Proof.
  apply map_eq. intros n.
  rewrite lookup_accepted, !lookup_union.
  pose proof (f_equal (.!! n) (accepted_accepted g)) as Hg.
  pose proof (f_equal (.!! n) (accepted_accepted f)) as Hf.
  simpl in Hg, Hf.
  rewrite (lookup_accepted (accepted g)) in Hg.
  rewrite (lookup_accepted (accepted f)) in Hf.
  by destruct (accepted g !! n), (accepted f !! n).
Qed.

Lemma enriched_empty e : enriched e ∅ = e.
Proof.
  destruct e as [l d]. unfold enriched. simpl.
  by rewrite accepted_empty, (left_id_L ∅ (∪)).
Qed.

Lemma enriched_accepted e f : enriched e (accepted f) = enriched e f.
Proof. unfold enriched. by rewrite accepted_accepted. Qed.

(** Two enrichments in a row are one, by the fields each of them wrote. *)
Lemma enriched_enriched e f g :
  enriched (enriched e f) g = enriched e (accepted g ∪ accepted f).
Proof.
  unfold enriched. simpl. by rewrite accepted_union, (assoc_L (∪)).
Qed.

(** A field of the enriched entry: the given value when there is one and it
    is accepted, else what the entry had. *)
Lemma lookup_enriched_accept e (f : Fields) n v :
  f !! n = Some v → is_func v = false → Data (enriched e f) !! n = Some v.
Proof.
  intros Hf Hv. simpl. apply lookup_union_Some_l.
  rewrite lookup_accepted, Hf. simpl. unfold accept. by rewrite Hv.
Qed.

Lemma lookup_enriched_refuse e (f : Fields) n v :
  f !! n = Some v → is_func v = true → Data (enriched e f) !! n = Data e !! n.
Proof.
  intros Hf Hv. simpl. apply lookup_union_r.
  rewrite lookup_accepted, Hf. simpl. unfold accept. by rewrite Hv.
Qed.

Lemma lookup_enriched_None e (f : Fields) n :
  f !! n = None → Data (enriched e f) !! n = Data e !! n.
Proof.
  intros Hf. simpl. apply lookup_union_r. by rewrite lookup_accepted, Hf.
Qed.

Lemma lookup_enriched_given e (f : Fields) n v :
  f !! n = Some v →
  Data (enriched e f) !! n = if is_func v then Data e !! n else Some v.
Proof.
  intros Hf. destruct (is_func v) eqn:E;
    eauto using lookup_enriched_accept, lookup_enriched_refuse.
Qed.

Lemma WithFields_live st a e fields :
  heap st !! a = Some e →
  WithFields (Some a) fields st
  = Some (Some (length (heap st)), grow st (enriched e fields)).
Proof. intros H. unfold WithFields, bind, deref. by rewrite H. Qed.

Lemma WithFields_nil st fields : WithFields None fields st = None.
Proof. done. Qed.

Lemma getLogrusLogger_base ctx keys st :
  getLogrusLogger ctx keys st
  = WithFields (base_logger ctx st) (resolve_fields ctx keys) st.
Proof.
  unfold getLogrusLogger, base_logger, bind.
  by destruct (bound_logger ctx).
Qed.

Lemma getLogrusLogger_live ctx keys st a e :
  base_logger ctx st = Some a → heap st !! a = Some e →
  getLogrusLogger ctx keys st
  = Some (Some (length (heap st)),
          grow st (enriched e (resolve_fields ctx keys))).
Proof.
  intros Hb He. rewrite getLogrusLogger_base, Hb. by apply WithFields_live.
Qed.

Lemma GetLogger_live ctx keys st a e :
  base_logger ctx st = Some a → heap st !! a = Some e →
  GetLogger ctx keys st
  = Some (LEntry (Some (length (heap st))),
          grow st (enriched e (resolve_fields ctx keys))).
Proof.
  intros Hb He. unfold GetLogger, bind.
  by rewrite (getLogrusLogger_live _ _ _ _ _ Hb He).
Qed.

Lemma GetLoggerWithFields_live ctx fields keys st a e :
  base_logger ctx st = Some a → heap st !! a = Some e →
  GetLoggerWithFields ctx fields keys st
  = Some (LEntry (Some (S (length (heap st)))),
          grow (grow st (enriched e (resolve_fields ctx keys)))
               (enriched (enriched e (resolve_fields ctx keys))
                         (convert_fields fields))).
Proof.
  intros Hb He. unfold GetLoggerWithFields, bind.
  rewrite (getLogrusLogger_live _ _ _ _ _ Hb He).
  rewrite (WithFields_live _ _ (enriched e (resolve_fields ctx keys)))
    by apply lookup_grow_new.
  simpl. by rewrite length_app, Nat.add_1_r.
Qed.

(** The logger [GetLoggerWithFields] returns: the base logger enriched
    with the context-derived fields, then with the explicit fields. *)
Lemma GetLoggerWithFields_returns ctx fields keys st a e :
  base_logger ctx st = Some a → heap st !! a = Some e →
  ∃ p st',
    GetLoggerWithFields ctx fields keys st = Some (LEntry (Some p), st')
    ∧ heap st' !! p = Some (enriched (enriched e (resolve_fields ctx keys))
                                     (convert_fields fields)).
Proof.
  intros Hb He. rewrite (GetLoggerWithFields_live _ _ _ _ _ _ Hb He).
  eexists _, _. split; [reflexivity |].
  replace (S (length (heap st)))
    with (length (heap (grow st (enriched e (resolve_fields ctx keys))))).
  - apply lookup_grow_new.
  - simpl. rewrite length_app. simpl. lia.
Qed.

Lemma convert_fields_single k v : convert_fields [(k, v)] = {[ Sprint k := v ]}.
Proof. unfold convert_fields. simpl. by rewrite insert_empty. Qed.

(** The single-pair operation is the map operation on a one-entry map. *)
Lemma GetLoggerWithField_as_Fields ctx k v keys st :
  GetLoggerWithField ctx k v keys st
  = GetLoggerWithFields ctx [(k, v)] keys st.
Proof.
  unfold GetLoggerWithField, GetLoggerWithFields, WithField.
  by rewrite convert_fields_single.
Qed.

Lemma GetLoggerWithField_live ctx k v keys st a e :
  base_logger ctx st = Some a → heap st !! a = Some e →
  GetLoggerWithField ctx k v keys st
  = Some (LEntry (Some (S (length (heap st)))),
          grow (grow st (enriched e (resolve_fields ctx keys)))
               (enriched (enriched e (resolve_fields ctx keys))
                         {[ Sprint k := v ]})).
Proof.
  intros Hb He. rewrite GetLoggerWithField_as_Fields.
  rewrite (GetLoggerWithFields_live _ _ _ _ _ _ Hb He).
  by rewrite convert_fields_single.
Qed.

(** A [*logrus.Entry], nil or not, replaces the default. *)
Lemma SetDefaultLogger_entry p st :
  SetDefaultLogger (LEntry p) st
  = Some (tt, {| heap := heap st; defaultLogger := p |}).
Proof. done. Qed.
End operations.

(** ** The field maps *)

Section fields.
Implicit Types (ctx : Context) (k : key) (v : value) (n : string).

Lemma resolve_fields_snoc ctx keys k :
  resolve_fields ctx (keys ++ [k])
  = resolve_step ctx (resolve_fields ctx keys) k.
Proof. unfold resolve_fields. by rewrite foldl_snoc. Qed.

Lemma is_nil_false v : is_nil v = false ↔ v ≠ VNil.
Proof. destruct v; simpl; split; congruence. Qed.

(** Every resolved field comes from a key with a value in the context. *)
Lemma resolve_fields_Some ctx keys n v :
  resolve_fields ctx keys !! n = Some v →
  ∃ k, k ∈ keys ∧ Sprint k = n ∧ Value ctx k = v ∧ v ≠ VNil.
Proof.
  induction keys as [|k keys IH] using rev_ind.
  - unfold resolve_fields. simpl. by rewrite lookup_empty.
  - rewrite resolve_fields_snoc. unfold resolve_step.
    destruct (is_nil (Value ctx k)) eqn:E.
    + intros H. destruct (IH H) as (k' & ? & ?). exists k'.
      rewrite elem_of_app. auto.
    + rewrite lookup_insert. case_decide as Hn.
      * intros [= <-]. exists k. apply is_nil_false in E.
        rewrite elem_of_app, list_elem_of_singleton. auto.
      * intros H. destruct (IH H) as (k' & ? & ?). exists k'.
        rewrite elem_of_app. auto.
Qed.

(** A key without a value in the context leaves the fields as they are. *)
Lemma resolve_fields_absent ctx keys1 k keys2 :
  Value ctx k = VNil →
  resolve_fields ctx (keys1 ++ k :: keys2) = resolve_fields ctx (keys1 ++ keys2).
Proof.
  intros Hv. unfold resolve_fields. rewrite !foldl_app. simpl.
  unfold resolve_step at 2. by rewrite Hv.
Qed.

Lemma convert_fields_snoc fields k v :
  convert_fields (fields ++ [(k, v)])
  = <[ Sprint k := v ]> (convert_fields fields).
Proof. unfold convert_fields. by rewrite foldl_snoc. Qed.

(** Every converted field comes from an entry of the map. *)
Lemma convert_fields_Some fields n v :
  convert_fields fields !! n = Some v →
  ∃ k, (k, v) ∈ fields ∧ Sprint k = n.
Proof.
  induction fields as [|[k w] fields IH] using rev_ind.
  - unfold convert_fields. simpl. by rewrite lookup_empty.
  - rewrite convert_fields_snoc, lookup_insert. case_decide as Hn.
    + intros [= <-]. exists k.
      rewrite elem_of_app, list_elem_of_singleton. auto.
    + intros H. destruct (IH H) as (k' & ? & ?). exists k'.
      rewrite elem_of_app. auto.
Qed.

Lemma convert_fields_is_Some fields k v :
  (k, v) ∈ fields → is_Some (convert_fields fields !! Sprint k).
Proof.
  induction fields as [|[k' w] fields IH] using rev_ind;
    [by intros ?%elem_of_nil |].
  intros Hin. rewrite convert_fields_snoc, lookup_insert.
  case_decide; [eauto |].
  apply elem_of_app in Hin as [Hin | Hin%list_elem_of_singleton]; [auto |].
  congruence.
Qed.
End fields.

(** ** Which value a field gets *)

Section precedence.
Implicit Types (ctx : Context) (k : key) (v : value) (n : string).

(** In the loop over the extra keys a later key writes over an earlier one
    of the same printed name: a key keeps its field when every later key
    of that name has no value, or the same value. *)
Lemma resolve_fields_last_same ctx keys1 k keys2 :
  Value ctx k ≠ VNil →
  (∀ k', k' ∈ keys2 → Sprint k' = Sprint k →
         Value ctx k' = VNil ∨ Value ctx k' = Value ctx k) →
  resolve_fields ctx (keys1 ++ k :: keys2) !! Sprint k = Some (Value ctx k).
Proof.
  intros Hv. induction keys2 as [|k' keys2 IH] using rev_ind; intros Hlater.
  - rewrite resolve_fields_snoc. unfold resolve_step.
    apply is_nil_false in Hv. rewrite Hv. apply lookup_insert_eq.
  - rewrite app_comm_cons, app_assoc, resolve_fields_snoc.
    unfold resolve_step.
    assert (resolve_fields ctx (keys1 ++ k :: keys2) !! Sprint k
            = Some (Value ctx k)) as Hrec.
    { apply IH. intros k'' Hin. apply Hlater. rewrite elem_of_app. auto. }
    destruct (is_nil (Value ctx k')) eqn:E; [done |].
    rewrite lookup_insert. case_decide as Hn; [| done].
    destruct (Hlater k') as [Hnil | Hsame]; [| done | | by rewrite Hsame].
    + rewrite elem_of_app, list_elem_of_singleton. auto.
    + apply is_nil_false in E. by destruct E.
Qed.

Lemma resolve_fields_last ctx keys1 k keys2 :
  Value ctx k ≠ VNil →
  (∀ k', k' ∈ keys2 → Sprint k' = Sprint k → Value ctx k' = VNil) →
  resolve_fields ctx (keys1 ++ k :: keys2) !! Sprint k = Some (Value ctx k).
Proof. intros Hv Hlater. apply resolve_fields_last_same; auto. Qed.

(** A name no valued key prints to is not among the resolved fields. *)
Lemma resolve_fields_None ctx keys n :
  (∀ k, k ∈ keys → Value ctx k ≠ VNil → Sprint k ≠ n) →
  resolve_fields ctx keys !! n = None.
Proof.
  intros Hno. destruct (resolve_fields ctx keys !! n) as [v|] eqn:E; [| done].
  destruct (resolve_fields_Some _ _ _ _ E) as (k & Hin & Hn & Hv & Hnn).
  destruct (Hno k Hin); [by rewrite Hv | done].
Qed.

(** In the conversion loop a later entry writes over an earlier one of the
    same printed name: an entry keeps its field when every later entry of
    that name has the same value. *)
Lemma convert_fields_last_same fields1 k v fields2 :
  (∀ k' v', (k', v') ∈ fields2 → Sprint k' = Sprint k → v' = v) →
  convert_fields (fields1 ++ (k, v) :: fields2) !! Sprint k = Some v.
Proof.
  induction fields2 as [|[k' w] fields2 IH] using rev_ind; intros Hlater.
  - rewrite convert_fields_snoc. apply lookup_insert_eq.
  - rewrite app_comm_cons, app_assoc, convert_fields_snoc.
    rewrite lookup_insert. case_decide as Hn.
    + f_equal. apply (Hlater k'); [| done].
      rewrite elem_of_app, list_elem_of_singleton. auto.
    + apply IH. intros k'' v'' Hin. apply Hlater. rewrite elem_of_app. auto.
Qed.

Lemma convert_fields_last fields1 k v fields2 :
  (∀ k', k' ∈ fields2.*1 → Sprint k' ≠ Sprint k) →
  convert_fields (fields1 ++ (k, v) :: fields2) !! Sprint k = Some v.
Proof.
  intros Hlater. apply convert_fields_last_same.
  intros k' v' Hin Hn. destruct (Hlater k'); [| done].
  apply list_elem_of_fmap. by exists (k', v').
Qed.

Lemma convert_fields_None fields n :
  (∀ k, k ∈ fields.*1 → Sprint k ≠ n) → convert_fields fields !! n = None.
Proof.
  intros Hno. destruct (convert_fields fields !! n) as [v|] eqn:E; [| done].
  destruct (convert_fields_Some _ _ _ E) as (k & Hin & Hn).
  destruct (Hno k); [| done]. apply list_elem_of_fmap. by exists (k, v).
Qed.

(** With printed names all different, an entry of the map is found by its
    name alone. *)
Lemma names_decide (fields : list (key * value)) k v k' w :
  NoDup (Sprint <$> fields.*1) →
  (k, v) ∈ fields → (k', w) ∈ fields → Sprint k = Sprint k' → v = w.
Proof.
  induction fields as [|[k0 u] fields IH]; [by intros _ ?%elem_of_nil |].
  rewrite !fmap_cons, NoDup_cons, !elem_of_cons. simpl.
  intros [Hnotin Hnd] [Hv | Hv] [Hw | Hw] Hn; [congruence | | | by apply IH].
  - destruct Hnotin. injection Hv as <- <-. rewrite Hn.
    apply list_elem_of_fmap. exists k'. split; [done |].
    apply list_elem_of_fmap. by exists (k', w).
  - destruct Hnotin. injection Hw as <- <-. rewrite <- Hn.
    apply list_elem_of_fmap. exists k. split; [done |].
    apply list_elem_of_fmap. by exists (k, v).
Qed.

Lemma convert_fields_lookup fields n v :
  NoDup (Sprint <$> fields.*1) →
  convert_fields fields !! n = Some v ↔ ∃ k, (k, v) ∈ fields ∧ Sprint k = n.
Proof.
  intros Hnd. split; [apply convert_fields_Some |].
  intros (k & Hin & <-).
  destruct (convert_fields_is_Some fields k v Hin) as [w Hl].
  destruct (convert_fields_Some _ _ _ Hl) as (k' & Hin' & Hn).
  by rewrite Hl, (names_decide fields k v k' w Hnd Hin Hin').
Qed.

(** The converted fields do not depend on the order the map is visited in,
    when its keys print to different names. *)
Lemma convert_fields_Permutation fields fields' :
  fields ≡ₚ fields' → NoDup (Sprint <$> fields.*1) →
  convert_fields fields = convert_fields fields'.
Proof.
  intros Hperm Hnd.
  assert (NoDup (Sprint <$> fields'.*1)) as Hnd' by by rewrite <- Hperm.
  apply map_eq. intros n. apply option_eq. intros v.
  rewrite !convert_fields_lookup by done.
  by setoid_rewrite Hperm.
Qed.
End precedence.

(** * The claims *)

(** ** Binding and resolving *)

(** C1, as stated, fails: a logger that is not a [*logrus.Entry] is bound
    under the private key but resolution does not return it; the caller
    gets a copy of the default logger instead. *)
Lemma GetLogger_WithLogger_other_impl :
  ∃ r st',
    GetLogger (WithLogger Background (LOther 7)) [] init_state = Some (r, st')
    ∧ r ≠ LOther 7
    ∧ logger_entry st' r = entry_at init_state (defaultLogger init_state).
Proof.
  exists (LEntry (Some 1)), (grow init_state (enriched {| Logger_ := 0; Data := ∅ |} ∅)).
  split; [reflexivity |]. split; [discriminate | reflexivity].
Qed.

(** C1, amended: for every context and every logger that is a live
    [*logrus.Entry], resolving on the context made by [WithLogger] returns
    that logger: an entry with its backend and its fields. *)
Theorem GetLogger_WithLogger_entry (ctx : Context) (a : addr) (e : Entry) (st : State) :
  heap st !! a = Some e →
  ∃ p st',
    GetLogger (WithLogger ctx (LEntry (Some a))) [] st = Some (LEntry (Some p), st')
    ∧ heap st' !! p = Some e.
Proof.
  intros He.
  rewrite (GetLogger_live _ _ _ a e); [| done | done].
  eexists _, _. split; [reflexivity |].
  change (resolve_fields _ []) with (∅ : Fields).
  rewrite enriched_empty. apply lookup_grow_new.
Qed.

Lemma GetLogger_WithLogger_entry_witness :
  heap sample_state !! 2 = Some other_entry
  ∧ ∃ p st',
      GetLogger (WithLogger sample_ctx (LEntry (Some 2))) [] sample_state
      = Some (LEntry (Some p), st')
      ∧ heap st' !! p = Some other_entry.
Proof.
  split; [reflexivity |].
  apply (GetLogger_WithLogger_entry sample_ctx 2 other_entry sample_state).
  reflexivity.
Defined.

(** C2: on a context with nothing bound under the private key, resolution
    returns the logger held as default (its backend and fields); once
    [SetDefaultLogger] has stored [L2], every later resolution on such a
    context returns [L2]. *)
Theorem unbound_resolves_to_default (ctx : Context) (st : State)
    (d : addr) (e : Entry) (a2 : addr) (e2 : Entry) (st2 : State) :
  Value ctx KLoggerKey = VNil →
  defaultLogger st = Some d → heap st !! d = Some e →
  heap st !! a2 = Some e2 →
  extends {| heap := heap st; defaultLogger := Some a2 |} st2 →
  (∃ p st', GetLogger ctx [] st = Some (LEntry (Some p), st')
            ∧ heap st' !! p = Some e)
  ∧ SetDefaultLogger (LEntry (Some a2)) st
    = Some (tt, {| heap := heap st; defaultLogger := Some a2 |})
  ∧ (∃ p st', GetLogger ctx [] st2 = Some (LEntry (Some p), st')
              ∧ heap st' !! p = Some e2).
Proof.
  intros Hun Hd He He2 Hext.
  assert (∀ s, base_logger ctx s = defaultLogger s) as Hbase.
  { intros s. unfold base_logger, bound_logger. by rewrite Hun. }
  split; [| split; [done |]].
  - rewrite (GetLogger_live _ _ _ d e); [| by rewrite Hbase | done].
    eexists _, _. split; [reflexivity |].
    change (resolve_fields _ []) with (∅ : Fields).
    rewrite enriched_empty. apply lookup_grow_new.
  - rewrite (GetLogger_live _ _ _ a2 e2).
    + eexists _, _. split; [reflexivity |].
      change (resolve_fields _ []) with (∅ : Fields).
      rewrite enriched_empty. apply lookup_grow_new.
    + rewrite Hbase. by destruct Hext as [-> _].
    + by apply (extends_lookup _ _ _ _ Hext).
Qed.

Lemma unbound_resolves_to_default_witness :
  (∃ p st', GetLogger unbound_ctx [] sample_state = Some (LEntry (Some p), st')
            ∧ heap st' !! p = Some {| Logger_ := StandardLogger; Data := ∅ |})
  ∧ SetDefaultLogger (LEntry (Some 1)) sample_state
    = Some (tt, {| heap := heap sample_state; defaultLogger := Some 1 |})
  ∧ (∃ p st',
       GetLogger unbound_ctx [] (grow {| heap := heap sample_state;
                                         defaultLogger := Some 1 |} other_entry)
       = Some (LEntry (Some p), st')
       ∧ heap st' !! p = Some sample_entry).
Proof.
  apply (unbound_resolves_to_default unbound_ctx sample_state 0 _ 1 sample_entry).
  - reflexivity.
  - reflexivity.
  - reflexivity.
  - reflexivity.
  - apply extends_grow.
Defined.

(** ** The default logger *)

(** C3: a value whose dynamic type is not [*logrus.Entry] makes
    [SetDefaultLogger] return normally with the state, and so the default
    logger, exactly as before. *)
Theorem SetDefaultLogger_wrong_type (logger : Logger) (st : State) :
  (∀ p, logger ≠ LEntry p) →
  SetDefaultLogger logger st = Some (tt, st).
Proof.
  intros Hty. destruct logger as [|p|i]; [done | | done].
  by destruct (Hty p).
Qed.

Lemma SetDefaultLogger_wrong_type_witness :
  (∀ p, LOther 3 ≠ LEntry p)
  ∧ SetDefaultLogger (LOther 3) sample_state = Some (tt, sample_state).
Proof.
  split; [discriminate |].
  apply (SetDefaultLogger_wrong_type (LOther 3) sample_state). discriminate.
Defined.

(** Any argument but a nil [*logrus.Entry] keeps the default logger live. *)
Lemma SetDefaultLogger_state_ok (logger : Logger) (st st' : State) :
  logger ≠ LEntry None → value_ok (heap st) (iface logger) = true →
  state_ok st = true →
  SetDefaultLogger logger st = Some (tt, st') →
  state_ok st' = true.
Proof.
  intros Hnil Hok Hst.
  destruct logger as [|[a|]|i]; simpl in *.
  - by intros [= <-].
  - intros [= <-]. exact Hok.
  - done.
  - by intros [= <-].
Qed.

(** C8: the code does not keep the default logger non-nil.  A nil
    [*logrus.Entry] passes the type assertion of [SetDefaultLogger] and is
    stored; the next resolution on a context without a logger calls
    [WithFields] on the nil pointer and panics. *)
Theorem SetDefaultLogger_nil_entry :
  ∃ st,
    SetDefaultLogger (LEntry None) init_state = Some (tt, st)
    ∧ defaultLogger st = None
    ∧ GetLogger Background [] st = None.
Proof. eexists. split; [reflexivity |]. split; reflexivity. Qed.

(** ** Retrieval has no effect but allocation *)

Section purity.
Implicit Types (st : State) (ctx : Context).

Lemma base_logger_extends ctx st st' :
  extends st st' → base_logger ctx st' = base_logger ctx st.
Proof. intros [Hd _]. unfold base_logger. by rewrite Hd. Qed.

Lemma GetLogger_enriches ctx keys :
  enriches (GetLogger ctx keys) ctx (resolve_fields ctx keys).
Proof.
  intros st a e Hb He. rewrite (GetLogger_live _ _ _ _ _ Hb He).
  eexists _, _. split; [reflexivity |].
  split; [apply extends_grow |]. split; [lia | apply lookup_grow_new].
Qed.

Lemma GetLoggerWithFields_enriches ctx fields keys :
  enriches (GetLoggerWithFields ctx fields keys) ctx
           (accepted (convert_fields fields) ∪ accepted (resolve_fields ctx keys)).
Proof.
  intros st a e Hb He. rewrite (GetLoggerWithFields_live _ _ _ _ _ _ Hb He).
  eexists _, _. split; [reflexivity |]. split; [| split; [lia |]].
  - eapply extends_trans; apply extends_grow.
  - rewrite <- enriched_enriched.
    replace (S (length (heap st)))
      with (length (heap (grow st (enriched e (resolve_fields ctx keys))))).
    + apply lookup_grow_new.
    + simpl. rewrite length_app. simpl. lia.
Qed.

Lemma GetLoggerWithField_enriches ctx k v keys :
  enriches (GetLoggerWithField ctx k v keys) ctx
           (accepted {[ Sprint k := v ]} ∪ accepted (resolve_fields ctx keys)).
Proof.
  intros st a e Hb He. rewrite GetLoggerWithField_as_Fields.
  rewrite <- convert_fields_single.
  exact (GetLoggerWithFields_enriches ctx [(k, v)] keys st a e Hb He).
Qed.

Lemma enriches_pure op ctx fields st :
  enriches op ctx fields →
  state_ok st = true → ctx_ok (heap st) ctx = true →
  retrieval_is_pure op ctx st.
Proof.
  intros Hop Hst Hctx.
  destruct (base_logger_live ctx st Hst Hctx) as (a & e & Hb & He).
  destruct (Hop st a e Hb He) as (p & st' & Hcall & Hext & Hp & Hnew).
  pose proof (base_logger_extends ctx _ _ Hext) as Hb'. rewrite Hb in Hb'.
  pose proof (extends_lookup _ _ _ _ Hext He) as He'.
  destruct (Hop st' a e Hb' He') as (p' & st'' & Hcall' & Hext' & Hp' & Hnew').
  exists p, st'. split; [done |]. split; [apply Hext |].
  split; [intros ? ?; by apply extends_lookup |].
  split; [by apply lookup_ge_None_2 |]. split; [by rewrite Hnew |].
  split.
  - destruct (GetLogger_enriches ctx [] st a e Hb He)
      as (q & s & Hq & _ & _ & Hqe).
    destruct (GetLogger_enriches ctx [] st' a e Hb' He')
      as (q' & s' & Hq' & _ & _ & Hqe').
    change (resolve_fields ctx []) with (∅ : Fields) in Hqe, Hqe'.
    rewrite enriched_empty in Hqe, Hqe'.
    by exists e, q, s, q', s'.
  - exists p', st''. split; [done |]. split; [| by rewrite Hnew, Hnew'].
    apply lookup_lt_Some in Hnew. lia.
Qed.
End purity.

(** C6: each of the three retrieval operations, run in a well-formed state,
    returns a logger and is pure in the sense of [retrieval_is_pure]: the
    default logger and every existing entry are untouched, the result is a
    new entry on every call, and resolution on the same context gives the
    same logger afterwards. *)
Theorem retrievals_are_pure (ctx : Context) (k : key) (v : value)
    (fields : list (key * value)) (keys : list key) (st : State) :
  state_ok st = true → ctx_ok (heap st) ctx = true →
  retrieval_is_pure (GetLogger ctx keys) ctx st
  ∧ retrieval_is_pure (GetLoggerWithField ctx k v keys) ctx st
  ∧ retrieval_is_pure (GetLoggerWithFields ctx fields keys) ctx st.
Proof.
  intros Hst Hctx. split; [| split].
  - eapply enriches_pure; eauto using GetLogger_enriches.
  - eapply enriches_pure; eauto using GetLoggerWithField_enriches.
  - eapply enriches_pure; eauto using GetLoggerWithFields_enriches.
Qed.

Lemma retrievals_are_pure_witness :
  state_ok sample_state = true ∧ ctx_ok (heap sample_state) sample_ctx = true
  ∧ retrieval_is_pure (GetLogger sample_ctx [KString "reqID"]) sample_ctx sample_state
  ∧ retrieval_is_pure
      (GetLoggerWithField sample_ctx (KInt 7) (VString "v") [KString "reqID"])
      sample_ctx sample_state
  ∧ retrieval_is_pure
      (GetLoggerWithFields sample_ctx [(KString "a", VInt 1); (KString "b", VInt 2)]
                           [KString "reqID"])
      sample_ctx sample_state.
Proof.
  split; [reflexivity |]. split; [reflexivity |].
  apply (retrievals_are_pure sample_ctx (KInt 7) (VString "v")
           [(KString "a", VInt 1); (KString "b", VInt 2)]
           [KString "reqID"] sample_state); reflexivity.
Defined.

(** ** Shadowing *)

(** C7: binding [L2] on a context derived from [ctx] changes what
    resolution returns on the derived context (the bound entry when [L2]
    is a live entry, the default otherwise) and leaves resolution on [ctx]
    as it was: the same logger before and after. *)
Theorem derived_binding_shadows (ctx : Context) (L2 : Logger) (st : State) :
  state_ok st = true → ctx_ok (heap st) ctx = true →
  value_ok (heap st) (iface L2) = true →
  ∃ e0 p0 st0 p1 st1 p2 st2,
    GetLogger ctx [] st = Some (LEntry (Some p0), st0)
    ∧ heap st0 !! p0 = Some e0
    ∧ GetLogger (WithLogger ctx L2) [] st0 = Some (LEntry (Some p1), st1)
    ∧ heap st1 !! p1 = match L2 with
                       | LEntry (Some a2) => heap st !! a2
                       | _ => entry_at st (defaultLogger st)
                       end
    ∧ GetLogger ctx [] st1 = Some (LEntry (Some p2), st2)
    ∧ heap st2 !! p2 = Some e0.
Proof.
  intros Hst Hctx HL2.
  destruct (base_logger_live ctx st Hst Hctx) as (a & e & Hb & He).
  destruct (GetLogger_enriches ctx [] st a e Hb He)
    as (p0 & st0 & Hcall0 & Hext0 & _ & Hnew0).
  change (resolve_fields ctx []) with (∅ : Fields) in Hnew0.
  rewrite enriched_empty in Hnew0.
  assert (state_ok st0 = true) as Hst0 by eauto using state_ok_extends.
  assert (ctx_ok (heap st0) (WithLogger ctx L2) = true) as Hctx0.
  { simpl. rewrite andb_true_iff. split.
    - eapply value_ok_mono; [by apply extends_length | done].
    - by apply (ctx_ok_extends st). }
  destruct (base_logger_live _ st0 Hst0 Hctx0) as (a1 & e1 & Hb1 & He1).
  destruct (GetLogger_enriches _ [] st0 a1 e1 Hb1 He1)
    as (p1 & st1 & Hcall1 & Hext1 & _ & Hnew1).
  change (resolve_fields _ []) with (∅ : Fields) in Hnew1.
  rewrite enriched_empty in Hnew1.
  pose proof (extends_trans _ _ _ Hext0 Hext1) as Hext01.
  pose proof (base_logger_extends ctx _ _ Hext01) as Hb2. rewrite Hb in Hb2.
  pose proof (extends_lookup _ _ _ _ Hext01 He) as He2.
  destruct (GetLogger_enriches ctx [] st1 a e Hb2 He2)
    as (p2 & st2 & Hcall2 & _ & _ & Hnew2).
  change (resolve_fields ctx []) with (∅ : Fields) in Hnew2.
  rewrite enriched_empty in Hnew2.
  exists e, p0, st0, p1, st1, p2, st2.
  repeat (split; [done |]). split; [| done].
  rewrite Hnew1, <- He1.
  assert (∀ d, defaultLogger st0 = Some d →
               heap st0 !! d = entry_at st (defaultLogger st)) as Hdef.
  { intros d Hd0. pose proof Hext0 as [Hd _]. rewrite Hd in Hd0.
    unfold state_ok in Hst. rewrite Hd0 in Hst. rewrite Hd0. simpl.
    apply extends_lookup_lt; [done | by apply Nat.ltb_lt]. }
  unfold base_logger, bound_logger in Hb1. simpl in Hb1.
  destruct L2 as [|[a2|]|i]; simpl in Hb1; auto.
  injection Hb1 as <-.
  apply extends_lookup_lt; [done | by apply Nat.ltb_lt].
Qed.

Lemma derived_binding_shadows_witness :
  state_ok sample_state = true
  ∧ ctx_ok (heap sample_state) sample_ctx = true
  ∧ value_ok (heap sample_state) (iface (LEntry (Some 2))) = true
  ∧ ∃ e0 p0 st0 p1 st1 p2 st2,
      GetLogger sample_ctx [] sample_state = Some (LEntry (Some p0), st0)
      ∧ heap st0 !! p0 = Some e0
      ∧ GetLogger (WithLogger sample_ctx (LEntry (Some 2))) [] st0
        = Some (LEntry (Some p1), st1)
      ∧ heap st1 !! p1 = heap sample_state !! 2
      ∧ GetLogger sample_ctx [] st1 = Some (LEntry (Some p2), st2)
      ∧ heap st2 !! p2 = Some e0.
Proof.
  split; [reflexivity |]. split; [reflexivity |]. split; [reflexivity |].
  apply (derived_binding_shadows sample_ctx (LEntry (Some 2)) sample_state);
    reflexivity.
Defined.

(** ** Fields *)

(** C4, as stated, fails when an extra key prints to the name of an
    explicit key: the context has a value for ["reqID"], yet the field
    carries the explicit value. *)
Lemma GetLoggerWithFields_name_clash :
  ∃ p st' e,
    GetLoggerWithFields unbound_ctx [(KString "reqID", VInt 1)]
                        [KString "reqID"] init_state
    = Some (LEntry (Some p), st')
    ∧ heap st' !! p = Some e
    ∧ Value unbound_ctx (KString "reqID") = VString "xyz"
    ∧ Data e !! "reqID" = Some (VInt 1)
    ∧ ¬ fields_as_stated unbound_ctx [(KString "reqID", VInt 1)]
                         [KString "reqID"] e.
Proof.
  eexists _, _, _. split; [reflexivity |]. split; [reflexivity |].
  split; [reflexivity |]. split; [reflexivity |].
  intros [_ Hctx].
  specialize (Hctx (KString "reqID")).
  assert (Some (VInt 1) = Some (VString "xyz")) as Habs; [| discriminate Habs].
  apply Hctx; [apply list_elem_of_singleton; reflexivity | discriminate].
Qed.

(** C4, amended: the returned logger has the base logger's backend and
    the base logger's fields, overlaid with the context-derived fields,
    overlaid with the explicit fields, a field whose value is a function
    being refused by logrus.  So an explicit key is mapped to its value
    when that is no function and no entry the loop visits later prints to
    the same name with another value; an extra key with a value in the
    context is mapped to that value when that is no function and no
    explicit key and no later extra key prints to its name with another
    value; a key without a value in the context contributes nothing; a
    name no explicit key and no extra key with a value prints to has what
    the base logger has; and [GetLoggerWithField] is
    [GetLoggerWithFields] on a one-entry map. *)
Theorem GetLoggerWithFields_fields (ctx : Context) (fields : list (key * value))
    (keys : list key) (st : State) :
  state_ok st = true → ctx_ok (heap st) ctx = true →
  ∃ p st' e base,
    GetLoggerWithFields ctx fields keys st = Some (LEntry (Some p), st')
    ∧ heap st' !! p = Some e
    ∧ entry_at st (base_logger ctx st) = Some base
    ∧ Logger_ e = Logger_ base
    ∧ (∀ fields1 k v fields2, fields = fields1 ++ (k, v) :: fields2 →
         (∀ k' v', (k', v') ∈ fields2 → Sprint k' = Sprint k → v' = v) →
         is_func v = false →
         Data e !! Sprint k = Some v)
    ∧ (∀ keys1 k keys2, keys = keys1 ++ k :: keys2 →
         Value ctx k ≠ VNil → is_func (Value ctx k) = false →
         (∀ k' v', (k', v') ∈ fields → Sprint k' = Sprint k →
                   v' = Value ctx k) →
         (∀ k', k' ∈ keys2 → Sprint k' = Sprint k →
                Value ctx k' = VNil ∨ Value ctx k' = Value ctx k) →
         Data e !! Sprint k = Some (Value ctx k))
    ∧ (∀ keys1 k keys2, keys = keys1 ++ k :: keys2 → Value ctx k = VNil →
         GetLoggerWithFields ctx fields (keys1 ++ keys2) st
         = Some (LEntry (Some p), st'))
    ∧ (∀ n, (∀ k, k ∈ fields.*1 → Sprint k ≠ n) →
         (∀ k, k ∈ keys → Value ctx k ≠ VNil → Sprint k ≠ n) →
         Data e !! n = Data base !! n)
    ∧ (∀ k v, GetLoggerWithField ctx k v keys st
              = GetLoggerWithFields ctx [(k, v)] keys st).
Proof.
  intros Hst Hctx.
  destruct (base_logger_live ctx st Hst Hctx) as (a & base & Hb & He).
  destruct (GetLoggerWithFields_returns ctx fields keys st a base Hb He)
    as (p & st' & Hcall & Hnew).
  eexists p, st', _, base. split; [exact Hcall |]. split; [exact Hnew |].
  split; [by rewrite Hb |]. split; [done |].
  split; [| split; [| split; [| split]]].
  - intros fields1 k v fields2 -> Hlater Hv.
    apply lookup_enriched_accept; [| done]. by apply convert_fields_last_same.
  - intros keys1 k keys2 -> Hval Hv Hexp Hlater.
    destruct (convert_fields fields !! Sprint k) as [w|] eqn:E.
    + destruct (convert_fields_Some _ _ _ E) as (k' & Hin & Hn).
      rewrite (Hexp k' w Hin Hn) in E. by apply lookup_enriched_accept.
    + rewrite lookup_enriched_None by done.
      apply lookup_enriched_accept; [| done]. by apply resolve_fields_last_same.
  - intros keys1 k keys2 -> Hval. rewrite <- Hcall.
    unfold GetLoggerWithFields, getLogrusLogger.
    by rewrite (resolve_fields_absent _ _ _ _ Hval).
  - intros n Hexp Hkeys.
    rewrite lookup_enriched_None by by apply convert_fields_None.
    apply lookup_enriched_None. by apply resolve_fields_None.
  - intros k v. apply GetLoggerWithField_as_Fields.
Qed.

Lemma GetLoggerWithFields_fields_witness :
  state_ok init_state = true
  ∧ ctx_ok (heap init_state) unbound_ctx = true
  ∧ ∃ p st' e,
      GetLoggerWithFields unbound_ctx [(KString "a", VInt 1); (KString "b", VInt 2)]
                          [KString "reqID"; KString "missing"] init_state
      = Some (LEntry (Some p), st')
      ∧ heap st' !! p = Some e
      ∧ Logger_ e = StandardLogger
      ∧ Data e !! "a" = Some (VInt 1)
      ∧ Data e !! "reqID" = Some (VString "xyz")
      ∧ Data e !! "missing" = None
      ∧ GetLoggerWithFields unbound_ctx [(KString "a", VInt 1); (KString "b", VInt 2)]
                            [KString "reqID"] init_state
        = Some (LEntry (Some p), st').
Proof.
  split; [reflexivity |]. split; [reflexivity |].
  destruct (GetLoggerWithFields_fields unbound_ctx
              [(KString "a", VInt 1); (KString "b", VInt 2)]
              [KString "reqID"; KString "missing"] init_state
              eq_refl eq_refl)
    as (p & st' & e & base & Hcall & He & Hbase & Hlog & Hexp & Hkey & Habsent
        & Hkept & _).
  injection Hbase as <-.
  exists p, st', e. split; [exact Hcall |]. split; [exact He |].
  split; [exact Hlog |]. split; [| split; [| split]].
  - apply (Hexp [] (KString "a") (VInt 1) [(KString "b", VInt 2)]);
      [reflexivity | | reflexivity].
    intros k' v' Hk' Hn. list_cases Hk'. injection Hk' as -> ->.
    discriminate Hn.
  - apply (Hkey [] (KString "reqID") [KString "missing"]);
      [reflexivity | discriminate | reflexivity | |].
    + intros k' v' Hk' Hn.
      list_cases Hk'; injection Hk' as -> ->; discriminate Hn.
    + intros k' Hk' Hn. list_cases Hk'. by left.
  - rewrite (Hkept "missing"); [reflexivity | |].
    + intros k' Hk'. simpl in Hk'. list_cases Hk'; discriminate.
    + intros k' Hk' Hv. list_cases Hk'; [discriminate | by destruct Hv].
  - apply (Habsent [KString "reqID"] (KString "missing") []); reflexivity.
Defined.

(** C5: one conversion names the field in all three operations.  For a
    key [k] that the context maps to [v], [GetLogger] with [k] as extra
    key, [GetLoggerWithField] with [k] and [v], and [GetLoggerWithFields]
    with the map [{k: v}] all return the base logger with the one field
    [Sprint k] mapped to [v] added. *)
Theorem field_name_is_Sprint (ctx : Context) (k : key) (v : value) (st : State) :
  state_ok st = true → ctx_ok (heap st) ctx = true →
  Value ctx k = v → v ≠ VNil →
  ∃ base,
    entry_at st (base_logger ctx st) = Some base
    ∧ (∃ p st', GetLogger ctx [k] st = Some (LEntry (Some p), st')
                ∧ heap st' !! p = Some (enriched base {[ Sprint k := v ]}))
    ∧ (∃ p st', GetLoggerWithField ctx k v [] st = Some (LEntry (Some p), st')
                ∧ heap st' !! p = Some (enriched base {[ Sprint k := v ]}))
    ∧ (∃ p st', GetLoggerWithFields ctx [(k, v)] [] st = Some (LEntry (Some p), st')
                ∧ heap st' !! p = Some (enriched base {[ Sprint k := v ]})).
Proof.
  intros Hst Hctx Hv Hnn.
  destruct (base_logger_live ctx st Hst Hctx) as (a & base & Hb & He).
  exists base. split; [by rewrite Hb |].
  assert (resolve_fields ctx [k] = {[ Sprint k := v ]}) as Hres.
  { unfold resolve_fields, resolve_step. simpl. rewrite Hv.
    apply is_nil_false in Hnn. rewrite Hnn. by rewrite insert_empty. }
  assert (enriched base (accepted {[ Sprint k := v ]}
                         ∪ accepted (resolve_fields ctx []))
          = enriched base {[ Sprint k := v ]}) as Hexp.
  { change (resolve_fields ctx []) with (∅ : Fields).
    by rewrite accepted_empty, (right_id_L ∅ (∪)), enriched_accepted. }
  split; [| split].
  - destruct (GetLogger_enriches ctx [k] st a base Hb He)
      as (p & st' & Hcall & _ & _ & Hnew).
    rewrite Hres in Hnew. by exists p, st'.
  - destruct (GetLoggerWithField_enriches ctx k v [] st a base Hb He)
      as (p & st' & Hcall & _ & _ & Hnew).
    rewrite Hexp in Hnew. by exists p, st'.
  - destruct (GetLoggerWithFields_enriches ctx [(k, v)] [] st a base Hb He)
      as (p & st' & Hcall & _ & _ & Hnew).
    rewrite convert_fields_single, Hexp in Hnew. by exists p, st'.
Qed.

Lemma field_name_is_Sprint_witness :
  state_ok sample_state = true
  ∧ ctx_ok (heap sample_state) (WithValue sample_ctx (KInt 42) (VString "v")) = true
  ∧ Value (WithValue sample_ctx (KInt 42) (VString "v")) (KInt 42) = VString "v"
  ∧ ∃ base,
      entry_at sample_state
        (base_logger (WithValue sample_ctx (KInt 42) (VString "v")) sample_state)
      = Some base
      ∧ (∃ p st',
           GetLogger (WithValue sample_ctx (KInt 42) (VString "v")) [KInt 42]
                     sample_state
           = Some (LEntry (Some p), st')
           ∧ heap st' !! p = Some (enriched base {[ "42" := VString "v" ]}))
      ∧ (∃ p st',
           GetLoggerWithField (WithValue sample_ctx (KInt 42) (VString "v"))
                              (KInt 42) (VString "v") [] sample_state
           = Some (LEntry (Some p), st')
           ∧ heap st' !! p = Some (enriched base {[ "42" := VString "v" ]}))
      ∧ (∃ p st',
           GetLoggerWithFields (WithValue sample_ctx (KInt 42) (VString "v"))
                               [(KInt 42, VString "v")] [] sample_state
           = Some (LEntry (Some p), st')
           ∧ heap st' !! p = Some (enriched base {[ "42" := VString "v" ]})).
Proof.
  split; [reflexivity |]. split; [reflexivity |]. split; [reflexivity |].
  apply (field_name_is_Sprint (WithValue sample_ctx (KInt 42) (VString "v"))
           (KInt 42) (VString "v") sample_state);
    [reflexivity | reflexivity | reflexivity | discriminate].
Defined.




(** * Further properties of the code *)

(** ** When resolution panics *)

Section panics.
Implicit Types (st : State) (ctx : Context).

Lemma base_logger_None ctx st :
  base_logger ctx st = None ↔ bound_logger ctx = None ∧ defaultLogger st = None.
Proof.
  unfold base_logger. destruct (bound_logger ctx); split;
    [done | by intros [? _] | done | by intros [_ ?]].
Qed.

(** Without dangling pointers, a non-nil base logger is allocated. *)
Lemma base_logger_allocated ctx st a :
  ctx_ok (heap st) ctx = true → ptr_ok (heap st) (defaultLogger st) = true →
  base_logger ctx st = Some a → is_Some (heap st !! a).
Proof.
  intros Hctx Hd. unfold base_logger, bound_logger.
  pose proof (ctx_ok_Value _ _ KLoggerKey Hctx) as Hv.
  destruct (Value ctx KLoggerKey) as [| | |[b|]| | |];
    try (intros Hb; rewrite Hb in Hd; by apply ptr_ok_live).
  intros [= <-]. by apply ptr_ok_live.
Qed.

Lemma getLogrusLogger_nil ctx keys st :
  base_logger ctx st = None → getLogrusLogger ctx keys st = None.
Proof. intros Hb. by rewrite getLogrusLogger_base, Hb. Qed.
End panics.

(** X1: for a context argument that is nil or built from
    [context.Background()] by [WithValue], and a state without dangling
    pointers, each retrieval panics exactly when the context is nil, or it
    binds no non-nil [*logrus.Entry] under the private key and the default
    logger is nil; the three operations panic in the same situations,
    whatever the keys and fields. *)
Theorem retrieval_panics_iff (c : ContextValue) (k : key) (v : value)
    (fields : list (key * value)) (keys : list key) (st : State) :
  context_ok (heap st) c = true → ptr_ok (heap st) (defaultLogger st) = true →
  (with_context c (λ ctx, GetLogger ctx keys) st = None
   ↔ no_logger_to_start_from c st)
  ∧ (with_context c (λ ctx, GetLoggerWithField ctx k v keys) st = None
     ↔ no_logger_to_start_from c st)
  ∧ (with_context c (λ ctx, GetLoggerWithFields ctx fields keys) st = None
     ↔ no_logger_to_start_from c st).
Proof.
  intros Hctx Hd. destruct c as [|ctx]; simpl in *; [by repeat split |].
  rewrite <- base_logger_None.
  destruct (base_logger ctx st) as [a|] eqn:Hb.
  - destruct (base_logger_allocated ctx st a Hctx Hd Hb) as [e He].
    rewrite (GetLogger_live _ _ _ _ _ Hb He),
      (GetLoggerWithField_live _ _ _ _ _ _ _ Hb He),
      (GetLoggerWithFields_live _ _ _ _ _ _ Hb He).
    repeat split; discriminate.
  - pose proof (getLogrusLogger_nil ctx keys st Hb) as Hnil.
    unfold GetLogger, GetLoggerWithField, GetLoggerWithFields, bind.
    rewrite Hnil. repeat split; done.
Qed.

Lemma retrieval_panics_iff_witness :
  context_ok (heap nil_default_state) (Ctx unbound_ctx) = true
  ∧ ptr_ok (heap nil_default_state) (defaultLogger nil_default_state) = true
  ∧ with_context (Ctx unbound_ctx) (λ ctx, GetLogger ctx [KString "reqID"])
                 nil_default_state = None
  ∧ with_context (Ctx sample_ctx) (λ ctx, GetLogger ctx [KString "reqID"])
                 nil_default_state ≠ None
  ∧ with_context CtxNil (λ ctx, GetLogger ctx [KString "reqID"]) sample_state = None.
Proof.
  split; [reflexivity |]. split; [reflexivity |]. split; [| split].
  - apply (retrieval_panics_iff (Ctx unbound_ctx) (KInt 0) VNil []
             [KString "reqID"] nil_default_state eq_refl eq_refl).
    split; reflexivity.
  - intros Hnone.
    apply (retrieval_panics_iff (Ctx sample_ctx) (KInt 0) VNil []
             [KString "reqID"] nil_default_state eq_refl eq_refl) in Hnone.
    destruct Hnone as [Hb _]. discriminate Hb.
  - apply (retrieval_panics_iff CtxNil (KInt 0) VNil []
             [KString "reqID"] sample_state eq_refl eq_refl).
    exact I.
Defined.

(** ** The bound logger comes before the default *)

(** X2: on a context that binds a live [*logrus.Entry], retrieval does not
    look at the default logger: after [SetDefaultLogger] with any argument,
    a nil entry included, [GetLogger] returns the same pointer to the same
    entry as it would have before. *)
Theorem bound_logger_ignores_default (ctx : Context) (a : addr) (e : Entry)
    (keys : list key) (logger : Logger) (st : State) :
  Value ctx KLoggerKey = VEntry (Some a) → heap st !! a = Some e →
  ∃ st1 p s s1 e',
    SetDefaultLogger logger st = Some (tt, st1)
    ∧ GetLogger ctx keys st = Some (LEntry (Some p), s)
    ∧ GetLogger ctx keys st1 = Some (LEntry (Some p), s1)
    ∧ heap s !! p = Some e'
    ∧ heap s1 !! p = Some e'
    ∧ Logger_ e' = Logger_ e.
Proof.
  intros Hv He.
  assert (∀ s, base_logger ctx s = Some a) as Hb.
  { intros s. unfold base_logger, bound_logger. by rewrite Hv. }
  assert (∃ st1, SetDefaultLogger logger st = Some (tt, st1)
                 ∧ heap st1 = heap st) as (st1 & Hset & Hheap).
  { destruct logger; eexists; split; reflexivity. }
  exists st1, (length (heap st)).
  eexists _, _, (enriched e (resolve_fields ctx keys)).
  split; [exact Hset |].
  split; [by apply (GetLogger_live _ _ _ a e) |].
  split.
  { rewrite (GetLogger_live _ _ _ a e); [| done | by rewrite Hheap].
    by rewrite Hheap. }
  split; [apply lookup_grow_new |]. split; [| done].
  rewrite <- Hheap. apply lookup_grow_new.
Qed.

Lemma bound_logger_ignores_default_witness :
  Value sample_ctx KLoggerKey = VEntry (Some 1)
  ∧ heap sample_state !! 1 = Some sample_entry
  ∧ ∃ st1 p s s1 e',
      SetDefaultLogger (LEntry None) sample_state = Some (tt, st1)
      ∧ GetLogger sample_ctx [KString "reqID"] sample_state = Some (LEntry (Some p), s)
      ∧ GetLogger sample_ctx [KString "reqID"] st1 = Some (LEntry (Some p), s1)
      ∧ heap s !! p = Some e'
      ∧ heap s1 !! p = Some e'
      ∧ Logger_ e' = Logger_ sample_entry.
Proof.
  split; [reflexivity |]. split; [reflexivity |].
  apply (bound_logger_ignores_default sample_ctx 1 sample_entry
           [KString "reqID"] (LEntry None) sample_state); reflexivity.
Defined.


(** X3: among the extra keys, when several with a value in the context
    print to one name, the last of them in the argument list decides the
    field: it carries that key's value, unless the value is a function,
    in which case the field is what the base logger has. *)
Theorem last_valued_key_wins (ctx : Context) (keys1 : list key) (k : key)
    (keys2 : list key) (st : State) :
  state_ok st = true → ctx_ok (heap st) ctx = true →
  Value ctx k ≠ VNil →
  (∀ k', k' ∈ keys2 → Sprint k' = Sprint k → Value ctx k' = VNil) →
  ∃ base p st' e,
    entry_at st (base_logger ctx st) = Some base
    ∧ GetLogger ctx (keys1 ++ k :: keys2) st = Some (LEntry (Some p), st')
    ∧ heap st' !! p = Some e
    ∧ Data e !! Sprint k
      = (if is_func (Value ctx k) then Data base !! Sprint k
         else Some (Value ctx k)).
Proof.
  intros Hst Hctx Hv Hlater.
  destruct (base_logger_live ctx st Hst Hctx) as (a & base & Hb & He).
  destruct (GetLogger_enriches ctx (keys1 ++ k :: keys2) st a base Hb He)
    as (p & st' & Hcall & _ & _ & Hnew).
  eexists base, p, st', _. split; [by rewrite Hb |].
  split; [exact Hcall |]. split; [exact Hnew |].
  apply lookup_enriched_given. by apply resolve_fields_last.
Qed.

Lemma last_valued_key_wins_witness :
  state_ok sample_state = true
  ∧ ctx_ok (heap sample_state) clash_ctx = true
  ∧ Value clash_ctx (KNamed "traceKey" "id") = VString "inner"
  ∧ ∃ p st' e,
      GetLogger clash_ctx ([KString "id"] ++ KNamed "traceKey" "id" :: [KString "gone"])
                sample_state
      = Some (LEntry (Some p), st')
      ∧ heap st' !! p = Some e
      ∧ Data e !! "id" = Some (VString "inner").
Proof.
  split; [reflexivity |]. split; [reflexivity |]. split; [reflexivity |].
  destruct (last_valued_key_wins clash_ctx [KString "id"] (KNamed "traceKey" "id")
              [KString "gone"] sample_state)
    as (base & p & st' & e & _ & Hcall & He & Hd);
    [reflexivity | reflexivity | discriminate | |].
  - intros k' Hin Hn. list_cases Hin. discriminate Hn.
  - by exists p, st', e.
Defined.

(** X4: a retrieval keeps the backend of the base logger and every field
    of it whose name is not written anew: under a name that no explicit key
    and no extra key with a value in the context prints to, the returned
    logger has what the base logger has (a value or nothing). *)
Theorem base_fields_kept (ctx : Context) (fields : list (key * value))
    (keys : list key) (n : string) (st : State) :
  state_ok st = true → ctx_ok (heap st) ctx = true →
  (∀ k, k ∈ fields.*1 → Sprint k ≠ n) →
  (∀ k, k ∈ keys → Value ctx k ≠ VNil → Sprint k ≠ n) →
  ∃ base p st' e q s e',
    entry_at st (base_logger ctx st) = Some base
    ∧ GetLoggerWithFields ctx fields keys st = Some (LEntry (Some p), st')
    ∧ heap st' !! p = Some e
    ∧ Logger_ e = Logger_ base
    ∧ Data e !! n = Data base !! n
    ∧ GetLogger ctx keys st = Some (LEntry (Some q), s)
    ∧ heap s !! q = Some e'
    ∧ Logger_ e' = Logger_ base
    ∧ Data e' !! n = Data base !! n.
Proof.
  intros Hst Hctx Hexp Hkeys.
  destruct (base_logger_live ctx st Hst Hctx) as (a & base & Hb & He).
  destruct (GetLoggerWithFields_returns ctx fields keys st a base Hb He)
    as (p & st' & Hcall & Hnew).
  destruct (GetLogger_enriches ctx keys st a base Hb He)
    as (q & s & Hcall' & _ & _ & Hnew').
  eexists base, p, st', _, q, s, _.
  split; [by rewrite Hb |]. split; [exact Hcall |]. split; [exact Hnew |].
  split; [done |]. split.
  { rewrite lookup_enriched_None by by apply convert_fields_None.
    apply lookup_enriched_None. by apply resolve_fields_None. }
  split; [exact Hcall' |]. split; [exact Hnew' |]. split; [done |].
  apply lookup_enriched_None. by apply resolve_fields_None.
Qed.

Lemma base_fields_kept_witness :
  state_ok sample_state = true
  ∧ ctx_ok (heap sample_state) sample_ctx = true
  ∧ ∃ p st' e,
      GetLoggerWithFields sample_ctx [(KString "a", VInt 1)]
                          [KString "reqID"; KString "service"] sample_state
      = Some (LEntry (Some p), st')
      ∧ heap st' !! p = Some e
      ∧ Logger_ e = Logger_ sample_entry
      ∧ Data e !! "service" = Some (VString "registry").
Proof.
  split; [reflexivity |]. split; [reflexivity |].
  destruct (base_fields_kept sample_ctx [(KString "a", VInt 1)]
              [KString "reqID"; KString "service"] "service" sample_state
              eq_refl eq_refl)
    as (base & p & st' & e & _ & _ & _ & Hbase & Hcall & He & Hlog & Hdata & _).
  - intros k Hin Hn. simpl in Hin. list_cases Hin. discriminate Hn.
  - intros k Hin Hv Hn. list_cases Hin; [discriminate Hn | by destruct Hv].
  - injection Hbase as <-. exists p, st', e.
    split; [exact Hcall |]. split; [exact He |]. split; [exact Hlog |].
    rewrite Hdata. reflexivity.
Defined.

(** X5: when its keys print to different names, the order in which the
    [range] loop visits the map has no influence: two visiting orders give
    the same result of [GetLoggerWithFields], panic included. *)
Theorem map_order_irrelevant (ctx : Context) (fields fields' : list (key * value))
    (keys : list key) (st : State) :
  fields ≡ₚ fields' → NoDup (Sprint <$> fields.*1) →
  GetLoggerWithFields ctx fields keys st = GetLoggerWithFields ctx fields' keys st.
Proof.
  intros Hperm Hnd. unfold GetLoggerWithFields.
  by rewrite (convert_fields_Permutation fields fields' Hperm Hnd).
Qed.

Lemma map_order_irrelevant_witness :
  [(KString "a", VInt 1); (KInt 7, VInt 2)] ≡ₚ [(KInt 7, VInt 2); (KString "a", VInt 1)]
  ∧ NoDup (Sprint <$> [(KString "a", VInt 1); (KInt 7, VInt 2)].*1)
  ∧ GetLoggerWithFields sample_ctx [(KString "a", VInt 1); (KInt 7, VInt 2)]
                        [KString "reqID"] sample_state
    = GetLoggerWithFields sample_ctx [(KInt 7, VInt 2); (KString "a", VInt 1)]
                          [KString "reqID"] sample_state.
Proof.
  assert (NoDup (Sprint <$> [(KString "a", VInt 1); (KInt 7, VInt 2)].*1)) as Hnd.
  { apply (bool_decide_unpack _). reflexivity. }
  split; [apply perm_swap |]. split; [exact Hnd |].
  apply (map_order_irrelevant sample_ctx _ _ [KString "reqID"] sample_state);
    [apply perm_swap | exact Hnd].
Defined.

(** X6: when explicit keys print to one name, the entry visited last
    decides the field, so the result follows the visiting order of the
    map: the field carries that entry's value, unless the value is a
    function, in which case the field is what [GetLogger] with the same
    extra keys gives. *)
Theorem last_explicit_entry_wins (ctx : Context) (fields1 : list (key * value))
    (k : key) (v : value) (fields2 : list (key * value)) (keys : list key)
    (st : State) :
  state_ok st = true → ctx_ok (heap st) ctx = true →
  (∀ k', k' ∈ fields2.*1 → Sprint k' ≠ Sprint k) →
  ∃ q s e0 p st' e,
    GetLogger ctx keys st = Some (LEntry (Some q), s)
    ∧ heap s !! q = Some e0
    ∧ GetLoggerWithFields ctx (fields1 ++ (k, v) :: fields2) keys st
      = Some (LEntry (Some p), st')
    ∧ heap st' !! p = Some e
    ∧ Data e !! Sprint k = (if is_func v then Data e0 !! Sprint k else Some v).
Proof.
  intros Hst Hctx Hlater.
  destruct (base_logger_live ctx st Hst Hctx) as (a & base & Hb & He).
  destruct (GetLogger_enriches ctx keys st a base Hb He)
    as (q & s & Hcall0 & _ & _ & Hnew0).
  destruct (GetLoggerWithFields_returns ctx (fields1 ++ (k, v) :: fields2)
              keys st a base Hb He) as (p & st' & Hcall & Hnew).
  eexists q, s, _, p, st', _.
  split; [exact Hcall0 |]. split; [exact Hnew0 |].
  split; [exact Hcall |]. split; [exact Hnew |].
  apply lookup_enriched_given. by apply convert_fields_last.
Qed.

Lemma last_explicit_entry_wins_witness :
  state_ok sample_state = true
  ∧ ctx_ok (heap sample_state) sample_ctx = true
  ∧ (∃ p st' e,
       GetLoggerWithFields sample_ctx
         ([(KString "1", VString "text")] ++ (KInt 1, VString "number") :: [])
         [] sample_state
       = Some (LEntry (Some p), st')
       ∧ heap st' !! p = Some e
       ∧ Data e !! "1" = Some (VString "number"))
  ∧ (∃ p st' e,
       GetLoggerWithFields sample_ctx
         ([(KInt 1, VString "number")] ++ (KString "1", VString "text") :: [])
         [] sample_state
       = Some (LEntry (Some p), st')
       ∧ heap st' !! p = Some e
       ∧ Data e !! "1" = Some (VString "text")).
Proof.
  split; [reflexivity |]. split; [reflexivity |]. split.
  - destruct (last_explicit_entry_wins sample_ctx [(KString "1", VString "text")]
                (KInt 1) (VString "number") [] [] sample_state)
      as (q & s & e0 & p & st' & e & _ & _ & Hcall & He & Hd);
      [reflexivity | reflexivity | |].
    + intros k' Hin. simpl in Hin. list_cases Hin.
    + by exists p, st', e.
  - destruct (last_explicit_entry_wins sample_ctx [(KInt 1, VString "number")]
                (KString "1") (VString "text") [] [] sample_state)
      as (q & s & e0 & p & st' & e & _ & _ & Hcall & He & Hd);
      [reflexivity | reflexivity | |].
    + intros k' Hin. simpl in Hin. list_cases Hin.
    + by exists p, st', e.
Defined.

(** ** Binding the logger a retrieval returned *)

Section rebinding.
Implicit Types (ctx : Context) (k : key).

(** The private key hides no caller key. *)
Lemma Value_WithLogger_other ctx logger k :
  k ≠ KLoggerKey → Value (WithLogger ctx logger) k = Value ctx k.
Proof. intros Hk. simpl. by rewrite decide_False. Qed.

Lemma resolve_fields_WithLogger ctx logger keys :
  KLoggerKey ∉ keys →
  resolve_fields (WithLogger ctx logger) keys = resolve_fields ctx keys.
Proof.
  induction keys as [|k keys IH] using rev_ind; [done |].
  rewrite not_elem_of_app, list_elem_of_singleton. intros [Hkeys Hk].
  rewrite !resolve_fields_snoc, IH by done.
  unfold resolve_step. rewrite Value_WithLogger_other; [done | congruence].
Qed.
End rebinding.

(** X7: the logger a retrieval returns can be bound and resolved again:
    [GetLogger] on [WithLogger ctx l], for [l] returned by
    [GetLoggerWithFields] on [ctx], yields the fields of [l] with the
    fields for the new extra keys written over them, the new keys being
    looked up as in [ctx]; without new keys it yields [l]'s backend and
    fields unchanged. *)
Theorem rebinding_accumulates (ctx : Context) (fields : list (key * value))
    (keys keys2 : list key) (st : State) :
  state_ok st = true → ctx_ok (heap st) ctx = true →
  KLoggerKey ∉ keys2 →
  ∃ p1 st1 e1 p2 st2 p3 st3,
    GetLoggerWithFields ctx fields keys st = Some (LEntry (Some p1), st1)
    ∧ heap st1 !! p1 = Some e1
    ∧ GetLogger (WithLogger ctx (LEntry (Some p1))) keys2 st1
      = Some (LEntry (Some p2), st2)
    ∧ heap st2 !! p2 = Some (enriched e1 (resolve_fields ctx keys2))
    ∧ GetLogger (WithLogger ctx (LEntry (Some p1))) [] st1
      = Some (LEntry (Some p3), st3)
    ∧ heap st3 !! p3 = Some e1.
Proof.
  intros Hst Hctx Hno.
  destruct (base_logger_live ctx st Hst Hctx) as (a & base & Hb & He).
  destruct (GetLoggerWithFields_enriches ctx fields keys st a base Hb He)
    as (p1 & st1 & Hcall & _ & _ & Hnew).
  assert (base_logger (WithLogger ctx (LEntry (Some p1))) st1 = Some p1) as Hb1
    by done.
  destruct (GetLogger_enriches _ keys2 st1 p1 _ Hb1 Hnew)
    as (p2 & st2 & Hcall2 & _ & _ & Hnew2).
  destruct (GetLogger_enriches _ [] st1 p1 _ Hb1 Hnew)
    as (p3 & st3 & Hcall3 & _ & _ & Hnew3).
  rewrite resolve_fields_WithLogger in Hnew2 by done.
  change (resolve_fields _ []) with (∅ : Fields) in Hnew3.
  rewrite enriched_empty in Hnew3.
  by eexists p1, st1, _, p2, st2, p3, st3.
Qed.

Lemma rebinding_accumulates_witness :
  state_ok sample_state = true
  ∧ ctx_ok (heap sample_state) sample_ctx = true
  ∧ (KLoggerKey ∉ [KString "reqID"])
  ∧ ∃ p1 st1 e1 p2 st2 p3 st3,
      GetLoggerWithFields sample_ctx [(KString "a", VInt 1)] [] sample_state
      = Some (LEntry (Some p1), st1)
      ∧ heap st1 !! p1 = Some e1
      ∧ GetLogger (WithLogger sample_ctx (LEntry (Some p1))) [KString "reqID"] st1
        = Some (LEntry (Some p2), st2)
      ∧ heap st2 !! p2
        = Some (enriched e1 (resolve_fields sample_ctx [KString "reqID"]))
      ∧ GetLogger (WithLogger sample_ctx (LEntry (Some p1))) [] st1
        = Some (LEntry (Some p3), st3)
      ∧ heap st3 !! p3 = Some e1.
Proof.
  assert (KLoggerKey ∉ [KString "reqID"]) as Hno.
  { intros Hin. list_cases Hin. discriminate Hin. }
  split; [reflexivity |]. split; [reflexivity |]. split; [exact Hno |].
  apply (rebinding_accumulates sample_ctx [(KString "a", VInt 1)] []
           [KString "reqID"] sample_state eq_refl eq_refl Hno).
Defined.

(** ** Replacing the default several times *)

Section default_sequences.
Implicit Types (st : State) (loggers : list Logger).

Lemma SetDefaultLogger_heap logger st :
  ∃ st', SetDefaultLogger logger st = Some (tt, st') ∧ heap st' = heap st.
Proof. destruct logger; eexists; split; reflexivity. Qed.

Lemma SetDefaultLogger_each_cons logger loggers st st' :
  SetDefaultLogger logger st = Some (tt, st') →
  SetDefaultLogger_each (logger :: loggers) st = SetDefaultLogger_each loggers st'.
Proof. intros H. simpl. unfold bind. by rewrite H. Qed.

(** The calls never fail and never touch the entries. *)
Lemma SetDefaultLogger_each_heap loggers st :
  ∃ st', SetDefaultLogger_each loggers st = Some (tt, st') ∧ heap st' = heap st.
Proof.
  revert st. induction loggers as [|l loggers IH]; intros st.
  - by exists st.
  - destruct (SetDefaultLogger_heap l st) as (st1 & Hset & Hh).
    rewrite (SetDefaultLogger_each_cons _ _ _ _ Hset).
    destruct (IH st1) as (st' & Hrun & Hh'). exists st'. split; [done | congruence].
Qed.

Lemma SetDefaultLogger_each_app loggers1 loggers2 st st1 :
  SetDefaultLogger_each loggers1 st = Some (tt, st1) →
  SetDefaultLogger_each (loggers1 ++ loggers2) st = SetDefaultLogger_each loggers2 st1.
Proof.
  revert st. induction loggers1 as [|l loggers1 IH]; intros st.
  - by intros [= ->].
  - destruct (SetDefaultLogger_heap l st) as (s & Hset & _).
    rewrite <- app_comm_cons, !(SetDefaultLogger_each_cons _ _ _ _ Hset).
    apply IH.
Qed.

(** Calls with values of other dynamic types change nothing. *)
Lemma SetDefaultLogger_each_wrong_type loggers st :
  Forall (λ l, is_entry l = false) loggers →
  SetDefaultLogger_each loggers st = Some (tt, st).
Proof.
  induction 1 as [|l loggers Hl _ IH]; [done |].
  rewrite (SetDefaultLogger_each_cons l loggers st st); [done |].
  by destruct l.
Qed.
End default_sequences.

(** X8: any sequence of [SetDefaultLogger] calls none of which passes a
    nil [*logrus.Entry] returns normally, allocates nothing and leaves a
    live default logger, so that a retrieval on any context afterwards
    returns a logger. *)
Theorem default_stays_live (loggers : list Logger) (ctx : Context)
    (keys : list key) (st : State) :
  state_ok st = true → ctx_ok (heap st) ctx = true →
  Forall (λ l, l ≠ LEntry None ∧ value_ok (heap st) (iface l) = true) loggers →
  ∃ st' p st'',
    SetDefaultLogger_each loggers st = Some (tt, st')
    ∧ heap st' = heap st
    ∧ state_ok st' = true
    ∧ GetLogger ctx keys st' = Some (LEntry (Some p), st'').
Proof.
  intros Hst Hctx Hls.
  assert (∃ st', SetDefaultLogger_each loggers st = Some (tt, st')
                 ∧ heap st' = heap st ∧ state_ok st' = true)
    as (st' & Hrun & Hh & Hst').
  { clear Hctx. revert st Hst Hls.
    induction loggers as [|l loggers IH]; intros st Hst Hls.
    - by exists st.
    - apply Forall_cons in Hls as [[Hnil Hok] Hls].
      destruct (SetDefaultLogger_heap l st) as (st1 & Hset & Hh).
      rewrite (SetDefaultLogger_each_cons _ _ _ _ Hset).
      destruct (IH st1) as (st' & Hrun & Hh' & Hst').
      + by apply (SetDefaultLogger_state_ok l st).
      + by rewrite Hh.
      + exists st'. split; [done |]. split; [congruence | done]. }
  rewrite <- Hh in Hctx.
  destruct (base_logger_live ctx st' Hst' Hctx) as (a & e & Hb & He).
  destruct (GetLogger_enriches ctx keys st' a e Hb He) as (p & st'' & Hcall & _).
  by exists st', p, st''.
Qed.

Lemma default_stays_live_witness :
  state_ok sample_state = true
  ∧ ctx_ok (heap sample_state) unbound_ctx = true
  ∧ ∃ st' p st'',
      SetDefaultLogger_each [LEntry (Some 2); LOther 4; LNil; LEntry (Some 1)]
                            sample_state
      = Some (tt, st')
      ∧ heap st' = heap sample_state
      ∧ state_ok st' = true
      ∧ GetLogger unbound_ctx [KString "reqID"] st' = Some (LEntry (Some p), st'').
Proof.
  split; [reflexivity |]. split; [reflexivity |].
  apply (default_stays_live [LEntry (Some 2); LOther 4; LNil; LEntry (Some 1)]
           unbound_ctx [KString "reqID"] sample_state eq_refl eq_refl).
  repeat (apply Forall_cons; split; [split; [discriminate | reflexivity] |]).
  apply Forall_nil_2.
Defined.

(** X9: in a sequence of [SetDefaultLogger] calls the last one whose
    argument is a [*logrus.Entry] decides the default; calls with values of
    other dynamic types after it do not undo it, and earlier calls leave no
    trace. *)
Theorem last_entry_call_decides (loggers1 : list Logger) (p : ptr)
    (loggers2 : list Logger) (st : State) :
  Forall (λ l, is_entry l = false) loggers2 →
  SetDefaultLogger_each (loggers1 ++ LEntry p :: loggers2) st
  = Some (tt, {| heap := heap st; defaultLogger := p |}).
Proof.
  intros Hrest.
  destruct (SetDefaultLogger_each_heap loggers1 st) as (st1 & Hrun & Hh).
  rewrite (SetDefaultLogger_each_app _ _ _ _ Hrun).
  rewrite (SetDefaultLogger_each_cons (LEntry p) loggers2 st1
             {| heap := heap st1; defaultLogger := p |}) by done.
  rewrite Hh. by apply SetDefaultLogger_each_wrong_type.
Qed.

Lemma last_entry_call_decides_witness :
  Forall (λ l, is_entry l = false) [LOther 4; LNil]
  ∧ SetDefaultLogger_each ([LEntry (Some 2)] ++ LEntry (Some 1) :: [LOther 4; LNil])
                          sample_state
    = Some (tt, {| heap := heap sample_state; defaultLogger := Some 1 |}).
Proof.
  assert (Forall (λ l, is_entry l = false) [LOther 4; LNil]) as Hrest.
  { repeat (apply Forall_cons; split; [reflexivity |]). apply Forall_nil_2. }
  split; [exact Hrest |].
  apply (last_entry_call_decides [LEntry (Some 2)] (Some 1) [LOther 4; LNil]
           sample_state Hrest).
Defined.
